(** * metaproperties: declared properties with listeners and a dirty flag

    A shallow embedding of [metaproperties_no_slots.py]: the bulk attribute
    initializer [self_properties] and the property builder
    [properties.prop], together with the small part of Python's object
    model they rest on ([getattr], [setattr], calls, the [property]
    descriptor), followed by the properties established about them.

    Modelling conventions.
    - An instance is its attribute dictionary (the module is the variant
      without [__slots__]); attribute lookup goes to the instance
      dictionary first and to the class dictionary second.  The class is
      assumed to define no data descriptor and no [__setattr__] /
      [__getattr__] hook under a backing-field name, the dirty-flag name or
      a listener name, so that [setattr] on those names is a plain store.
    - Python values are the closed type [value].  Of the floating point
      numbers only the objects that are not a number (NaN) are represented,
      because they are the built-in values that do not compare equal to
      themselves; objects with a user-defined [__eq__] / [__ne__] are not
      represented, so [!=] is pure and total here.
    - User code (the wrapped default-value function and the listeners) is
      arbitrary: a function from the instance dictionary to a new instance
      dictionary and either a returned value or a raised exception.
    - Everything the utility itself does to an instance is recorded in a
      log of events, which user code cannot touch. *)

From stdpp Require Import gmap strings list fin_maps.
From Stdlib Require Import ZArith.

Local Open Scope string_scope.
Local Open Scope list_scope.
Set Warnings "-register-all".

(** ** Python values *)

Inductive value : Type :=
| VNone
| VBool (b : bool)
| VInt (z : Z)
| VStr (s : string)
| VTuple (vs : list value)
| VFun (id : nat)      (* a callable, identified by its code index *)
| VObj (id : nat)      (* any other object, compared by identity *)
| VNaN (id : nat).     (* a float object that is NaN; [id] is the object *)

(** [a is b] for two NaN objects.  The comparison of the items of two
    tuples takes identical objects as equal before it asks [==]; among the
    represented values that shortcut is observable for NaN only. *)
Definition same_nan (a b : value) : bool :=
  match a, b with
  | VNaN i, VNaN j => Nat.eqb i j
  | _, _ => false
  end.

(** [a == b] on the represented values: [bool] is a subtype of [int]
    ([True == 1]), tuples compare item by item (identical items are equal),
    callables and plain objects by identity, and a NaN is equal to nothing,
    itself included. *)
Fixpoint py_eq (a b : value) : bool :=
  match a, b with
  | VNone, VNone => true
  | VBool x, VBool y => Bool.eqb x y
  | VBool x, VInt y => Z.eqb (Z.b2z x) y
  | VInt x, VBool y => Z.eqb x (Z.b2z y)
  | VInt x, VInt y => Z.eqb x y
  | VStr x, VStr y => String.eqb x y
  | VTuple xs, VTuple ys =>
      (fix all2 (xs ys : list value) {struct xs} : bool :=
         match xs, ys with
         | [], [] => true
         | x :: xs', y :: ys' => (same_nan x y || py_eq x y) && all2 xs' ys'
         | _, _ => false
         end) xs ys
  | VFun i, VFun j => Nat.eqb i j
  | VObj i, VObj j => Nat.eqb i j
  | _, _ => false
  end.

(** [a != b] *)
Definition py_ne (a b : value) : bool := negb (py_eq a b).

(** ** Exceptions, results, the instance and the log *)

Inductive exn : Type :=
| AttributeError (attr : string)
| ValueError (msg : string)
| TypeError (msg : string)
| UserError (tag : nat).

Inductive result (S A : Type) : Type :=
| Ok (a : A) (s : S)
| Raise (e : exn) (s : S).
Arguments Ok {S A} a s.
Arguments Raise {S A} e s.

(** What the utility does to an instance, in program order. *)
Inductive event : Type :=
| EvSetattr (name : string) (v : value)        (* setattr(inst, name, v) *)
| EvCall (name : string) (args : list value)   (* getattr(inst, name)(args) *)
| EvDefault (fname : string).                  (* f(inst), the wrapped function *)

(** User code sees and changes the instance dictionary only. *)
Definition pycode : Type :=
  list value → gmap string value → result (gmap string value) value.

(** A Python function object as far as the decorator looks at it. *)
Record pyfunction : Type := {
  __name__ : string;
  __doc__ : option string;
  body : gmap string value → result (gmap string value) value
}.

(** The class of the instance: its dictionary and the code of callables. *)
Record pyclass : Type := {
  class_dict : gmap string value;
  code : nat → pycode
}.

Record world : Type := {
  attrs : gmap string value;   (* inst.__dict__ *)
  log : list event
}.

Definition M (A : Type) : Type := world → result world A.

Definition ret {A} (a : A) : M A := fun w => Ok a w.

Definition bind {A B} (m : M A) (k : A → M B) : M B :=
  fun w => match m w with
           | Ok a w' => k a w'
           | Raise e w' => Raise e w'
           end.

Definition raise {A} (e : exn) : M A := fun w => Raise e w.

Declare Scope py_scope.
Delimit Scope py_scope with py.
Notation "'let!' x ':=' m 'in' k" := (bind m (fun x => k))
  (at level 10, x name, m at level 100, k at level 200) : py_scope.
Notation "m '>>' k" := (bind m (fun _ => k))
  (at level 100, k at level 200, right associativity) : py_scope.
Local Open Scope py_scope.

(** The world a computation ends in, whether it returned or raised. *)
Definition final {A} (r : result world A) : world :=
  match r with Ok _ w => w | Raise _ w => w end.

(** ** Attribute access and calls *)

Section Instance.

Variable cls : pyclass.

(** Attribute lookup: the instance dictionary, then the class. *)
Definition lookup_attr (a : gmap string value) (name : string) : option value :=
  match a !! name with
  | Some v => Some v
  | None => class_dict cls !! name
  end.

(** [getattr(inst, name)] *)
Definition getattr (name : string) : M value :=
  fun w => match lookup_attr (attrs w) name with
           | Some v => Ok v w
           | None => Raise (AttributeError name) w
           end.

(** [getattr(inst, name, default)], the default already evaluated. *)
Definition getattr_default (name : string) (default : value) : M value :=
  fun w => match lookup_attr (attrs w) name with
           | Some v => Ok v w
           | None => Ok default w
           end.

(** [setattr(inst, name, v)] and [inst.name = v] *)
Definition setattr (name : string) (v : value) : M unit :=
  fun w => Ok tt {| attrs := <[name := v]> (attrs w);
                    log := log w ++ [EvSetattr name v] |}.

(** Running user code on the instance; the log is out of its reach. *)
Definition run_user {A} (ev : event)
    (c : gmap string value → result (gmap string value) A) : M A :=
  fun w =>
    let l := log w ++ [ev] in
    match c (attrs w) with
    | Ok r a => Ok r {| attrs := a; log := l |}
    | Raise e a => Raise e {| attrs := a; log := l |}
    end.

(** Calling [callee] with positional [args], for a [callee] obtained as
    [getattr(inst, name)]. *)
Definition call (name : string) (callee : value) (args : list value) : M value :=
  match callee with
  | VFun id => run_user (EvCall name args) (code cls id args)
  | _ => raise (TypeError "object is not callable")
  end.

(** [f(inst)] for the function wrapped by the decorator. *)
Definition call_function (f : pyfunction) : M value :=
  run_user (EvDefault (__name__ f)) (body f).

(** ** The [property] descriptor *)

Record property : Type := {
  fget : option (M value);
  fset : option (value → M unit);
  fdel : option (M unit);
  fdoc : option string
}.

(** [inst.x] where [x] is a property of the class *)
Definition property_get (p : property) : M value :=
  match fget p with
  | Some g => g
  | None => raise (AttributeError "unreadable attribute")
  end.

(** [inst.x = v] where [x] is a property of the class *)
Definition property_set (p : property) (v : value) : M unit :=
  match fset p with
  | Some s => s v
  | None => raise (AttributeError "can't set attribute")
  end.

(** ** class [properties] *)

Record properties : Type := {
  _scope : option (list (string * value));
  _var : option string;
  _auto_dirty : bool
}.

Definition properties_init (scope : list (string * value)) (var_name : string)
    (auto_dirty : bool) : properties :=
  {| _scope := Some scope; _var := Some var_name; _auto_dirty := auto_dirty |}.

Definition properties_enter (self : properties) : properties := self.

Definition properties_exit (self : properties) : properties :=
  {| _scope := None; _var := None; _auto_dirty := _auto_dirty self |}.

(** The [listener] argument: [None] by default, else a [bool] or a [str]. *)
Inductive listener_arg : Type :=
| LAbsent
| LBool (b : bool)
| LStr (s : string).

(** [if listener:] *)
Definition listener_truthy (l : listener_arg) : bool :=
  match l with
  | LAbsent => false
  | LBool b => b
  | LStr s => negb (String.eqb s "")
  end.

(** [listener if isinstance(listener, str) else '_changed'] *)
Definition listener_name_of (l : listener_arg) : string :=
  match l with
  | LStr s => s
  | _ => "_changed"
  end.

(** [when c m]: [if c: m] *)
Definition when (c : bool) (m : M unit) : M unit := if c then m else ret tt.

(** The setter generated for an observable property (source lines 73-79). *)
Definition setter_listener (field listener_name : string) (auto_dirty : bool)
    (new : value) : M unit :=
  let! old := getattr_default field VNone in
  if py_ne old new then
    setattr field new >>
    when auto_dirty (setattr "_is_dirty" (VBool true)) >>
    let! m := getattr listener_name in
    let! _r := call listener_name m [VStr field; old; new] in
    ret tt
  else ret tt.

(** The setter generated without a listener (source lines 81-85). *)
Definition setter_plain (field : string) (auto_dirty : bool) (new : value) : M unit :=
  let! old := getattr_default field VNone in
  if py_ne old new then
    setattr field new >>
    when auto_dirty (setattr "_is_dirty" (VBool true))
  else ret tt.

(** [properties.prop(read_only, listener, auto_dirty)(f)]: the decorator
    applied to [f].  No instance takes part in it. *)
Definition prop (self : properties) (read_only : bool) (listener : listener_arg)
    (auto_dirty : bool) (f : pyfunction) : exn + property :=
  let auto_dirty := _auto_dirty self || auto_dirty in
  let field := "_" +:+ __name__ f in
  if read_only && listener_truthy listener then
    inl (ValueError ("property " +:+ field +:+
                     " cannot be read_only and observable at the same time."))
  else
    let setter :=
      if read_only then None
      else if listener_truthy listener then
        let listener_name := listener_name_of listener in
        Some (setter_listener field listener_name auto_dirty)
      else
        Some (setter_plain field auto_dirty) in
    inr {| fget := Some (let! d := call_function f in getattr_default field d);
           fset := setter;
           fdel := None;
           fdoc := __doc__ f |}.

(** ** [self_properties] *)

(** [k != 'self' and k not in exclude] *)
Definition copied (exclude : list string) (k : string) : bool :=
  negb (String.eqb k "self") && negb (bool_decide (k ∈ exclude)).

(** The loop of the [save_args] branch; [args] is the list being appended to. *)
Fixpoint copy_saving (items : list (string * value)) (exclude : list string)
    (args : list value) : M (list value) :=
  match items with
  | [] => ret args
  | (k, v) :: rest =>
      if copied exclude k then
        setattr ("_" +:+ k) v >>
        copy_saving rest exclude (args ++ [v])
      else copy_saving rest exclude args
  end.

(** The loop of the other branch. *)
Fixpoint copy_plain (items : list (string * value)) (exclude : list string) : M unit :=
  match items with
  | [] => ret tt
  | (k, v) :: rest =>
      if copied exclude k then
        setattr ("_" +:+ k) v >>
        copy_plain rest exclude
      else copy_plain rest exclude
  end.

(** [scope] is a [dict] in insertion order; [scope.items()] is the list. *)
Definition self_properties (scope : list (string * value)) (exclude : list string)
    (save_args : bool) : M unit :=
  if save_args then
    let! args := copy_saving scope exclude [] in
    setattr "_args" (VTuple args)
  else
    copy_plain scope exclude.

(** ** What the specification talks about *)

(** The value the setter compares with: [getattr(inst, field, None)]. *)
Definition current (field : string) (w : world) : value :=
  default VNone (lookup_attr (attrs w) field).

(** The world after the stores of a value-changing write, which is the
    world in which a listener is looked up and called. *)
Definition stored (field : string) (auto_dirty : bool) (new : value)
    (w : world) : world :=
  if auto_dirty then
    {| attrs := <["_is_dirty" := VBool true]> (<[field := new]> (attrs w));
       log := log w ++ [EvSetattr field new; EvSetattr "_is_dirty" (VBool true)] |}
  else
    {| attrs := <[field := new]> (attrs w);
       log := log w ++ [EvSetattr field new] |}.

(** [getattr(inst, name)(field, old, new)], the value returned dropped. *)
Definition notify (name : string) (args : list value) : M unit :=
  let! m := getattr name in
  let! _r := call name m args in
  ret tt.

End Instance.

(** ** Deleting through the descriptor *)

(** [del inst.x] where [x] is a property of the class *)
Definition property_delete (p : property) : M unit :=
  match fdel p with
  | Some d => d
  | None => raise (AttributeError "can't delete attribute")
  end.

(** ** The bulk initializer, in closed form *)

(** The entries the loops copy: key other than ['self'] and not excluded. *)
Definition copied_items (exclude : list string) (scope : list (string * value))
    : list (string * value) :=
  filter (λ kv : string * value, kv.1 ≠ "self" ∧ kv.1 ∉ exclude) scope.

(** The event of copying one entry. *)
Definition store_event (kv : string * value) : event :=
  EvSetattr ("_" +:+ kv.1) kv.2.

(** Copying a list of entries, one [setattr] each, first to last. *)
Definition store_items (items : list (string * value)) (w : world) : world :=
  fold_left (λ w kv, {| attrs := <["_" +:+ kv.1 := kv.2]> (attrs w);
                        log := log w ++ [store_event kv] |}) items w.

(** A store into [_is_dirty] of anything but [True]. *)
Definition clears_dirty_flag (e : event) : Prop :=
  ∃ v, e = EvSetattr "_is_dirty" v ∧ v ≠ VBool true.


(** ** Counting what a run did *)

Definition is_call (e : event) : bool :=
  match e with EvCall _ _ => true | _ => false end.

Definition is_dirty_store (e : event) : bool :=
  match e with
  | EvSetattr name _ => String.eqb name "_is_dirty"
  | _ => false
  end.

Definition listener_calls (l : list event) : nat := length (List.filter is_call l).

Definition dirty_stores (l : list event) : nat :=
  length (List.filter is_dirty_store l).

(** ** A concrete class, after the usage example of the source *)

Module Car.

(** Code of the callables of the class.  Number 0 is a listener that only
    observes.  Number 1 is a listener that reacts by storing into the
    instance: in the example of the source, [_on_acceleration] switches the
    engine off when the speed is too high and [_on_off_listener] then does
    [self._speed = 0].  Number 2 clears the dirty flag. *)
Definition car_code (id : nat) : pycode :=
  fun args a =>
    match id with
    | 0 => Ok VNone a
    | 1 => Ok VNone (<["_speed" := VInt 0]> a)
    | 2 => Ok VNone (<["_is_dirty" := VBool false]> a)
    | _ => Raise (UserError id) a
    end.

Definition car : pyclass :=
  {| class_dict := list_to_map [("_on_change", VFun 0); ("_changed", VFun 0);
                                ("_on_acceleration", VFun 1);
                                ("_saved", VFun 2)];
     code := car_code |}.

(** [def speed(self) -> float: return 0] *)
Definition speed : pyfunction :=
  {| __name__ := "speed"; __doc__ := Some "Speed of the car";
     body := fun a => Ok (VInt 0) a |}.

(** [def brand(self) -> str:] with a docstring only *)
Definition brand : pyfunction :=
  {| __name__ := "brand"; __doc__ := Some "Brand";
     body := fun a => Ok VNone a |}.

(** [def is_dirty(self): return False] *)
Definition is_dirty : pyfunction :=
  {| __name__ := "is_dirty"; __doc__ := None;
     body := fun a => Ok (VBool false) a |}.

(** [def gear(self): self._gear = 1; return 0] *)
Definition gear : pyfunction :=
  {| __name__ := "gear"; __doc__ := None;
     body := fun a => Ok (VInt 0) (<["_gear" := VInt 1]> a) |}.

Definition meta : properties := properties_init [] "meta" false.

Definition fresh : world := {| attrs := ∅; log := [] |}.

(** An instance whose [_speed] is 50. *)
Definition moving : world := {| attrs := {["_speed" := VInt 50]}; log := [] |}.

(** An instance whose dirty flag is set. *)
Definition dirty : world := {| attrs := {["_is_dirty" := VBool true]}; log := [] |}.

End Car.

(** ** Induction on values *)

Section ValueInduction.

Variable P : value → Prop.
Hypothesis HNone : P VNone.
Hypothesis HBool : ∀ b, P (VBool b).
Hypothesis HInt : ∀ z, P (VInt z).
Hypothesis HStr : ∀ s, P (VStr s).
Hypothesis HTuple : ∀ vs, Forall P vs → P (VTuple vs).
Hypothesis HFun : ∀ id, P (VFun id).
Hypothesis HObj : ∀ id, P (VObj id).
Hypothesis HNaN : ∀ id, P (VNaN id).

(** Induction on values that reaches inside tuples. *)
Fixpoint value_nested_ind (v : value) : P v :=
  match v with
  | VNone => HNone
  | VBool b => HBool b
  | VInt z => HInt z
  | VStr s => HStr s
  | VTuple vs =>
      HTuple vs
        ((fix elems (l : list value) : Forall P l :=
            match l with
            | [] => @List.Forall_nil value P
            | x :: r => @List.Forall_cons value P x r (value_nested_ind x) (elems r)
            end) vs)
  | VFun id => HFun id
  | VObj id => HObj id
  | VNaN id => HNaN id
  end.

End ValueInduction.

(** * Properties *)


(** ** Equality of values *)

(** Every value but a NaN compares equal to itself. *)
Lemma py_eq_refl (v : value) : (∀ i, v ≠ VNaN i) → py_eq v v = true.
Proof.
  induction v as [ | b | z | s | vs IH | i | i | i ] using value_nested_ind;
    intros Hv; simpl.
  - reflexivity.
  - by destruct b.
  - apply Z.eqb_refl.
  - apply String.eqb_refl.
  - clear Hv. induction IH as [ | x r Hx _ IHr ]; [ reflexivity | ].
    rewrite IHr, andb_true_r.
    destruct x; try (rewrite Hx by done; apply orb_true_r).
    simpl. by rewrite Nat.eqb_refl.
  - apply Nat.eqb_refl.
  - apply Nat.eqb_refl.
  - by destruct (Hv i).
Qed.

Lemma py_ne_refl (v : value) : (∀ i, v ≠ VNaN i) → py_ne v v = false.
Proof. intros Hv. unfold py_ne. by rewrite py_eq_refl. Qed.

(** [nan != nan] is true, for one object as for two; a tuple is equal to
    itself even with a NaN in it, and two tuples are equal when they hold
    the same NaN object, not when they hold two. *)
Example py_ne_nan :
  py_ne (VNaN 0) (VNaN 0) = true
  ∧ py_ne (VNaN 0) (VNaN 1) = true
  ∧ py_ne (VTuple [VInt 1; VNaN 0]) (VTuple [VInt 1; VNaN 0]) = false
  ∧ py_ne (VTuple [VInt 1; VNaN 0]) (VTuple [VInt 1; VNaN 1]) = true.
Proof. done. Qed.

(** ** What the generated accessors do *)

Section Accessors.

Variable cls : pyclass.

Lemma getattr_default_current field w :
  getattr_default cls field VNone w = Ok (current cls field w) w.
Proof.
  unfold getattr_default, current.
  by destruct (lookup_attr cls (attrs w) field).
Qed.

Lemma stores_run field ad new w :
  (setattr field new >> when ad (setattr "_is_dirty" (VBool true))) w
  = Ok tt (stored field ad new w).
Proof.
  unfold bind, setattr, when, stored, ret. destruct ad; simpl; [ | done ].
  by rewrite <- app_assoc.
Qed.

Lemma setter_plain_same field ad new w :
  py_ne (current cls field w) new = false →
  setter_plain cls field ad new w = Ok tt w.
Proof.
  intros Heq. unfold setter_plain, bind at 1.
  by rewrite getattr_default_current, Heq.
Qed.

Lemma setter_plain_changed field ad new w :
  py_ne (current cls field w) new = true →
  setter_plain cls field ad new w = Ok tt (stored field ad new w).
Proof.
  intros Hne. unfold setter_plain, bind at 1.
  rewrite getattr_default_current, Hne. apply stores_run.
Qed.

Lemma setter_listener_same field name ad new w :
  py_ne (current cls field w) new = false →
  setter_listener cls field name ad new w = Ok tt w.
Proof.
  intros Heq. unfold setter_listener, bind at 1.
  by rewrite getattr_default_current, Heq.
Qed.

Lemma setter_listener_changed field name ad new w :
  py_ne (current cls field w) new = true →
  setter_listener cls field name ad new w
  = notify cls name [VStr field; current cls field w; new] (stored field ad new w).
Proof.
  intros Hne. unfold setter_listener, bind at 1.
  rewrite getattr_default_current, Hne.
  unfold bind at 1. unfold setattr at 1.
  unfold bind at 1.
  unfold notify, stored, when, setattr, ret.
  destruct ad; simpl; [ | done ].
  by rewrite <- app_assoc.
Qed.

(** The setter of a property that is not read-only. *)
Lemma prop_setter self l ad f p :
  prop cls self false l ad f = inr p →
  fset p = Some (if listener_truthy l
                 then setter_listener cls ("_" +:+ __name__ f)
                        (listener_name_of l) (_auto_dirty self || ad)
                 else setter_plain cls ("_" +:+ __name__ f)
                        (_auto_dirty self || ad)).
Proof.
  unfold prop. simpl. intros [= <-]. simpl.
  by destruct (listener_truthy l).
Qed.

(** The getter of any property. *)
Lemma prop_getter self ro l ad f p :
  prop cls self ro l ad f = inr p →
  fget p = Some (let! d := call_function f in
                 getattr_default cls ("_" +:+ __name__ f) d).
Proof.
  unfold prop. destruct (ro && listener_truthy l); [ done | ].
  by intros [= <-].
Qed.

(** What the generated getter returns, in closed form. *)
Lemma getter_run f w :
  (let! d := call_function f in getattr_default cls ("_" +:+ __name__ f) d) w
  = match body f (attrs w) with
    | Ok d a =>
        Ok (default d (lookup_attr cls a ("_" +:+ __name__ f)))
           {| attrs := a; log := log w ++ [EvDefault (__name__ f)] |}
    | Raise e a =>
        Raise e {| attrs := a; log := log w ++ [EvDefault (__name__ f)] |}
    end.
Proof.
  unfold bind, call_function, run_user.
  destruct (body f (attrs w)) as [ d a | e a ]; [ | done ].
  unfold getattr_default. simpl.
  by destruct (lookup_attr cls a ("_" +:+ __name__ f)).
Qed.

End Accessors.

(** ** Writing a value equal to the current one *)

Lemma backing_field_not_dirty_flag (name : string) :
  name ≠ "is_dirty" → "_" +:+ name ≠ "_is_dirty".
Proof. intros Hne [= Heq]. by apply Hne. Qed.

Lemma current_stored cls field ad new w :
  (ad = false ∨ field ≠ "_is_dirty") →
  current cls field (stored field ad new w) = new.
Proof.
  intros Hok. unfold current, lookup_attr, stored.
  destruct ad; simpl.
  - destruct Hok as [ | Hne ]; [ done | ].
    rewrite lookup_insert_ne by done. by rewrite lookup_insert_eq.
  - by rewrite lookup_insert_eq.
Qed.

(** C1, as amended.  For a property that is not read-only, assigning a value
    that compares equal to [getattr(inst, field, None)] changes nothing:
    the instance and the log of the utility's actions are the same
    afterwards, so there is no store, no dirty flag and no listener call.
    Writing the same value a second time is such a no-op whenever the
    backing field still compares equal to it when the second write starts.
    For a property without a listener that is so for every value that
    compares equal to itself (every value but a NaN), unless auto-dirty is
    active on a property named [is_dirty]. *)
Theorem setter_same_value_noop cls self l ad f p st :
  prop cls self false l ad f = inr p →
  fset p = Some st →
  (∀ w new, py_ne (current cls ("_" +:+ __name__ f) w) new = false →
            st new w = Ok tt w)
  ∧ (∀ w new,
       py_ne (current cls ("_" +:+ __name__ f) (final (st new w))) new = false →
       st new (final (st new w)) = Ok tt (final (st new w)))
  ∧ (listener_truthy l = false →
     _auto_dirty self || ad = false ∨ __name__ f ≠ "is_dirty" →
     ∀ w new, py_ne new new = false →
              ∃ w1, st new w = Ok tt w1 ∧ st new w1 = Ok tt w1).
Proof.
  intros Hp Hst. rewrite (prop_setter _ _ _ _ _ _ Hp) in Hst.
  injection Hst as <-.
  assert (Hsame : ∀ w new,
    py_ne (current cls ("_" +:+ __name__ f) w) new = false →
    (if listener_truthy l
     then setter_listener cls ("_" +:+ __name__ f) (listener_name_of l)
            (_auto_dirty self || ad)
     else setter_plain cls ("_" +:+ __name__ f) (_auto_dirty self || ad))
      new w = Ok tt w).
  { intros w new Heq. destruct (listener_truthy l).
    - by apply setter_listener_same.
    - by apply setter_plain_same. }
  split; [ exact Hsame | ]. split.
  - intros w new Heq. by apply Hsame.
  - intros Hl Hname w new Hrefl. rewrite Hl.
    destruct (py_ne (current cls ("_" +:+ __name__ f) w) new) eqn:Hcmp.
    + exists (stored ("_" +:+ __name__ f) (_auto_dirty self || ad) new w).
      split; [ by apply setter_plain_changed | ].
      apply setter_plain_same. rewrite current_stored; [ done | ].
      destruct Hname as [ Hoff | Hname ]; [ by left | right ].
      by apply backing_field_not_dirty_flag.
    + exists w. split; by apply setter_plain_same.
Qed.

Lemma setter_same_value_noop_witness :
  setter_plain Car.car "_speed" true (VInt 50) Car.moving = Ok tt Car.moving
  ∧ ∃ w1, setter_plain Car.car "_speed" true (VInt 50) Car.fresh = Ok tt w1
          ∧ setter_plain Car.car "_speed" true (VInt 50) w1 = Ok tt w1.
Proof.
  destruct (setter_same_value_noop Car.car Car.meta LAbsent true Car.speed
              {| fget := Some (let! d := call_function Car.speed in
                               getattr_default Car.car "_speed" d);
                 fset := Some (setter_plain Car.car "_speed" true);
                 fdel := None; fdoc := Some "Speed of the car" |}
              (setter_plain Car.car "_speed" true) eq_refl eq_refl)
    as (Hsame & _ & Htwice).
  split.
  - apply Hsame. reflexivity.
  - apply Htwice; [ reflexivity | right; discriminate | reflexivity ].
Defined.

(** C1 as stated fails in two ways.  With a listener that stores into the
    backing field (here the speed is reset to 0), assigning 50 twice in
    succession runs the listener twice and stores the dirty flag twice.
    And without any listener, assigning one NaN object twice in succession
    stores the dirty flag twice, because a NaN does not compare equal to
    itself. *)
Lemma same_value_twice_counterexample :
  (∃ p st,
     prop Car.car Car.meta false (LStr "_on_acceleration") true Car.speed = inr p
     ∧ fset p = Some st
     ∧ listener_calls (log (final ((st (VInt 50) >> st (VInt 50)) Car.fresh))) = 2
     ∧ dirty_stores (log (final ((st (VInt 50) >> st (VInt 50)) Car.fresh))) = 2)
  ∧ (∃ p st,
       prop Car.car Car.meta false LAbsent true Car.speed = inr p
       ∧ fset p = Some st
       ∧ dirty_stores (log (final ((st (VNaN 0) >> st (VNaN 0)) Car.fresh))) = 2).
Proof.
  split; eexists _, _; (split; [ reflexivity | ]); (split; [ reflexivity | ]);
    by vm_compute.
Qed.

(** ** Declaring a read-only property *)

(** C2, as amended.  Declaring a property with [read_only = True] and a
    listener that is true in the sense of [if listener:], that is [True] or
    a non-empty name, makes the decorator raise [ValueError] when it is
    applied to the function.  The decorator takes no instance: this happens
    at declaration time. *)
Theorem read_only_listener_rejected cls self l ad f :
  listener_truthy l = true →
  prop cls self true l ad f
  = inl (ValueError ("property " +:+ ("_" +:+ __name__ f) +:+
                     " cannot be read_only and observable at the same time.")).
Proof. intros Hl. unfold prop. by rewrite Hl. Qed.

Lemma read_only_listener_rejected_witness :
  prop Car.car Car.meta true (LStr "_on_change") false Car.brand
  = inl (ValueError
           "property _brand cannot be read_only and observable at the same time.").
Proof.
  exact (read_only_listener_rejected Car.car Car.meta (LStr "_on_change") false
           Car.brand eq_refl).
Defined.

(** C2 as stated fails: [listener=False] and [listener=''] are listener
    arguments other than the absent one, a boolean and a string, and
    declaring a read-only property with them raises nothing. *)
Lemma read_only_falsy_listener_counterexample :
  LBool false ≠ LAbsent ∧ LStr "" ≠ LAbsent
  ∧ (∃ p, prop Car.car Car.meta true (LBool false) false Car.brand = inr p)
  ∧ (∃ p, prop Car.car Car.meta true (LStr "") false Car.brand = inr p).
Proof. repeat split; try discriminate; by eexists. Qed.

(** ** Reading a property *)

(** C3, as amended.  Reading a declared property first calls the wrapped
    function [f] on the instance, in every case and exactly once; if [f]
    raises, so does the read.  Otherwise the read returns the backing field
    if the instance has it when [f] has returned, and the value returned by
    [f] if not.  So for an [f] that leaves the instance as it is: with the
    backing field present the read returns its value, and with the backing
    field absent it returns [f(instance)]. *)
Theorem getter_reads cls self ro l ad f p g w :
  prop cls self ro l ad f = inr p →
  fget p = Some g →
  log (final (g w)) = log w ++ [EvDefault (__name__ f)]
  ∧ (∀ e a, body f (attrs w) = Raise e a →
       g w = Raise e {| attrs := a; log := log w ++ [EvDefault (__name__ f)] |})
  ∧ (∀ d a, body f (attrs w) = Ok d a →
       g w = Ok (default d (lookup_attr cls a ("_" +:+ __name__ f)))
               {| attrs := a; log := log w ++ [EvDefault (__name__ f)] |})
  ∧ (∀ d v, body f (attrs w) = Ok d (attrs w) →
       lookup_attr cls (attrs w) ("_" +:+ __name__ f) = Some v →
       g w = Ok v {| attrs := attrs w; log := log w ++ [EvDefault (__name__ f)] |})
  ∧ (∀ d, body f (attrs w) = Ok d (attrs w) →
       lookup_attr cls (attrs w) ("_" +:+ __name__ f) = None →
       g w = Ok d {| attrs := attrs w; log := log w ++ [EvDefault (__name__ f)] |}).
Proof.
  intros Hp Hg. rewrite (prop_getter _ _ _ _ _ _ _ Hp) in Hg.
  injection Hg as <-. rewrite getter_run.
  destruct (body f (attrs w)) as [ d a | e a ] eqn:Hf.
  - split; [ done | ]. split; [ done | ]. split; [ by intros ? ? [= <- <-] | ].
    split.
    + intros d' v [= <- <-] Hv. by rewrite Hv.
    + intros d' [= <- <-] Hv. by rewrite Hv.
  - split; [ done | ]. split; [ by intros ? ? [= <- <-] | ]. done.
Qed.

Lemma getter_reads_witness :
  ∃ g, g Car.moving
       = Ok (VInt 50) {| attrs := attrs Car.moving; log := [EvDefault "speed"] |}
     ∧ g Car.fresh
       = Ok (VInt 0) {| attrs := attrs Car.fresh; log := [EvDefault "speed"] |}.
Proof.
  exists (let! d := call_function Car.speed in
          getattr_default Car.car "_speed" d).
  split.
  - destruct (getter_reads Car.car Car.meta false LAbsent false Car.speed _ _
                Car.moving eq_refl eq_refl) as (_ & _ & _ & Hpresent & _).
    exact (Hpresent (VInt 0) (VInt 50) eq_refl eq_refl).
  - destruct (getter_reads Car.car Car.meta false LAbsent false Car.speed _ _
                Car.fresh eq_refl eq_refl) as (_ & _ & _ & _ & Habsent).
    exact (Habsent (VInt 0) eq_refl eq_refl).
Defined.

(** C3 as stated fails twice.  With the backing field present the read
    still calls [f] (the call is in the log).  And with the backing field
    absent the read returns the field again when [f] itself stores it:
    [gear] stores 1 and returns 0, and the read returns 1. *)
Lemma getter_counterexample :
  (∃ p g, prop Car.car Car.meta false LAbsent false Car.speed = inr p
          ∧ fget p = Some g
          ∧ lookup_attr Car.car (attrs Car.moving) "_speed" = Some (VInt 50)
          ∧ log (final (g Car.moving)) = [EvDefault "speed"]
          ∧ g Car.moving ≠ Ok (VInt 50) Car.moving)
  ∧ (∃ p g, prop Car.car Car.meta false LAbsent false Car.gear = inr p
            ∧ fget p = Some g
            ∧ lookup_attr Car.car (attrs Car.fresh) "_gear" = None
            ∧ body Car.gear (attrs Car.fresh) = Ok (VInt 0) {["_gear" := VInt 1]}
            ∧ ∃ w, g Car.fresh = Ok (VInt 1) w).
Proof.
  split; eexists _, _; (split; [ reflexivity | ]); (split; [ reflexivity | ]).
  - split; [ reflexivity | ]. split; [ reflexivity | ]. by vm_compute.
  - split; [ reflexivity | ]. split; [ reflexivity | ]. by eexists.
Qed.

(** ** A value-changing write to an observable property *)

Lemma notify_run cls name args w :
  notify cls name args w
  = match lookup_attr cls (attrs w) name with
    | None => Raise (AttributeError name) w
    | Some (VFun id) =>
        match code cls id args (attrs w) with
        | Ok _ a => Ok tt {| attrs := a; log := log w ++ [EvCall name args] |}
        | Raise e a => Raise e {| attrs := a; log := log w ++ [EvCall name args] |}
        end
    | Some _ => Raise (TypeError "object is not callable") w
    end.
Proof.
  unfold notify, bind at 1, getattr.
  destruct (lookup_attr cls (attrs w) name) as [ m | ]; [ | done ].
  unfold bind, call, run_user, raise, ret.
  destruct m; try done.
  by destruct (code cls id args (attrs w)).
Qed.

(** C4.  For a property with a listener, a write of a value that differs
    from [getattr(inst, field, None)] stores the new value in the backing
    field, then stores [True] in [_is_dirty] if auto-dirty is active, and
    only then looks the listener up by its name, on the instance as it is
    at that moment (instance dictionary first, class second), and calls it
    with the three positional arguments field name, old value, new value.
    The old value is [None] when the backing field did not exist.  The log
    shows the order; the world [w1] is the one the listener is resolved and
    run in. *)
Theorem listener_setter_changed cls self l ad f p st w new :
  prop cls self false l ad f = inr p →
  fset p = Some st →
  listener_truthy l = true →
  py_ne (current cls ("_" +:+ __name__ f) w) new = true →
  let field := "_" +:+ __name__ f in
  let dirty := _auto_dirty self || ad in
  let old := current cls field w in
  let name := listener_name_of l in
  let args := [VStr field; old; new] in
  ∃ w1,
    attrs w1 = (if dirty then <["_is_dirty" := VBool true]> (<[field := new]> (attrs w))
                else <[field := new]> (attrs w))
    ∧ log w1 = log w ++ EvSetattr field new ::
                 (if dirty then [EvSetattr "_is_dirty" (VBool true)] else [])
    ∧ (lookup_attr cls (attrs w) field = None → old = VNone)
    ∧ match lookup_attr cls (attrs w1) name with
      | None => st new w = Raise (AttributeError name) w1
      | Some (VFun id) =>
          match code cls id args (attrs w1) with
          | Ok _ a =>
              st new w = Ok tt {| attrs := a; log := log w1 ++ [EvCall name args] |}
          | Raise e a =>
              st new w = Raise e {| attrs := a; log := log w1 ++ [EvCall name args] |}
          end
      | Some _ => st new w = Raise (TypeError "object is not callable") w1
      end.
Proof.
  intros Hp Hst Hl Hne. cbv zeta.
  rewrite (prop_setter _ _ _ _ _ _ Hp), Hl in Hst. injection Hst as <-.
  exists (stored ("_" +:+ __name__ f) (_auto_dirty self || ad) new w).
  split; [ unfold stored; by destruct (_auto_dirty self || ad) | ].
  split; [ unfold stored; by destruct (_auto_dirty self || ad) | ].
  split; [ intros Habs; unfold current; by rewrite Habs | ].
  rewrite (setter_listener_changed _ _ _ _ _ _ Hne), notify_run.
  destruct (lookup_attr cls _ (listener_name_of l)) as [ m | ]; [ | done ].
  destruct m; try done.
  by destruct (code cls id _ _).
Qed.

(** The scenario of the specification: [speed] declared with
    [listener='_on_change'], first assignment of 50. *)
Lemma listener_setter_changed_witness :
  setter_listener Car.car "_speed" "_on_change" false (VInt 50) Car.fresh
  = Ok tt {| attrs := {["_speed" := VInt 50]};
             log := [EvSetattr "_speed" (VInt 50);
                     EvCall "_on_change" [VStr "_speed"; VNone; VInt 50]] |}.
Proof.
  destruct (listener_setter_changed Car.car Car.meta (LStr "_on_change") false
              Car.speed
              {| fget := Some (let! d := call_function Car.speed in
                               getattr_default Car.car "_speed" d);
                 fset := Some (setter_listener Car.car "_speed" "_on_change" false);
                 fdel := None; fdoc := Some "Speed of the car" |}
              (setter_listener Car.car "_speed" "_on_change" false)
              Car.fresh (VInt 50) eq_refl eq_refl eq_refl eq_refl)
    as (w1 & Hattrs & Hlog & _ & Hcall).
  destruct w1 as [a1 l1]. simpl in Hattrs, Hlog. subst a1 l1.
  exact Hcall.
Defined.

(** ** The bulk initializer *)

Lemma copied_spec exclude k :
  copied exclude k = true ↔ k ≠ "self" ∧ k ∉ exclude.
Proof.
  unfold copied. rewrite andb_true_iff, !negb_true_iff.
  rewrite bool_decide_eq_false. split.
  - intros [Hself Hex]. split; [ | done ].
    intros ->. by rewrite String.eqb_refl in Hself.
  - intros [Hself Hex]. split; [ | done ].
    by apply String.eqb_neq.
Qed.

Lemma copy_plain_run scope exclude w :
  copy_plain scope exclude w = Ok tt (store_items (copied_items exclude scope) w).
Proof.
  revert w. induction scope as [ | [k v] rest IH ]; intros w; [ done | ].
  simpl. unfold copied_items in *.
  destruct (copied exclude k) eqn:Hc.
  - rewrite filter_cons_True by (by apply copied_spec).
    unfold bind at 1, setattr at 1. by rewrite IH.
  - rewrite filter_cons_False; [ apply IH | ].
    simpl. rewrite <- copied_spec. by rewrite Hc.
Qed.

Lemma copy_saving_run scope exclude args w :
  copy_saving scope exclude args w
  = Ok (args ++ (copied_items exclude scope).*2)
       (store_items (copied_items exclude scope) w).
Proof.
  revert args w. induction scope as [ | [k v] rest IH ]; intros args w.
  { simpl. unfold ret. by rewrite app_nil_r. }
  simpl. unfold copied_items in *.
  destruct (copied exclude k) eqn:Hc.
  - rewrite filter_cons_True by (by apply copied_spec).
    unfold bind at 1, setattr at 1. rewrite IH. simpl.
    by rewrite <- app_assoc.
  - rewrite filter_cons_False; [ apply IH | ].
    simpl. rewrite <- copied_spec. by rewrite Hc.
Qed.

Lemma store_items_cons kv rest w :
  store_items (kv :: rest) w
  = store_items rest {| attrs := <["_" +:+ kv.1 := kv.2]> (attrs w);
                        log := log w ++ [store_event kv] |}.
Proof. reflexivity. Qed.

Lemma store_items_log items w :
  log (store_items items w) = log w ++ map store_event items.
Proof.
  revert w. induction items as [ | kv rest IH ]; intros w.
  - simpl. by rewrite app_nil_r.
  - rewrite store_items_cons, IH. simpl. by rewrite <- app_assoc.
Qed.

Lemma store_items_other items w (n : string) :
  (∀ k v, (k, v) ∈ items → n ≠ "_" +:+ k) →
  attrs (store_items items w) !! n = attrs w !! n.
Proof.
  revert w. induction items as [ | [k v] rest IH ]; intros w Hn; [ done | ].
  rewrite store_items_cons, IH.
  - cbn [attrs fst snd]. apply lookup_insert_ne. intros Heq.
    eapply Hn; [ | by symmetry ]. apply list_elem_of_here.
  - intros k' v' Hin. apply Hn with v'. by apply list_elem_of_further.
Qed.

Lemma store_items_lookup items w k v :
  NoDup items.*1 → (k, v) ∈ items →
  attrs (store_items items w) !! ("_" +:+ k) = Some v.
Proof.
  revert w. induction items as [ | [k' v'] rest IH ]; intros w Hnd Hin.
  { by apply not_elem_of_nil in Hin. }
  rewrite fmap_cons in Hnd. apply NoDup_cons in Hnd as [Hfresh Hnd].
  rewrite store_items_cons.
  apply elem_of_cons in Hin as [ [= <- <-] | Hin ].
  - etrans; [ apply store_items_other | apply lookup_insert_eq ].
    intros k2 v2 Hin2 [= Heq]. change (k = k2) in Heq. subst k2. apply Hfresh.
    apply list_elem_of_fmap. by exists (k, v2).
  - by apply IH.
Qed.

Lemma copied_items_elem exclude scope k v :
  (k, v) ∈ copied_items exclude scope ↔
  (k, v) ∈ scope ∧ k ≠ "self" ∧ k ∉ exclude.
Proof. unfold copied_items. rewrite list_elem_of_filter. simpl. tauto. Qed.

Lemma copied_items_NoDup exclude scope :
  NoDup scope.*1 → NoDup (copied_items exclude scope).*1.
Proof.
  unfold copied_items. induction scope as [ | [k v] rest IH ]; [ done | ].
  simpl. intros Hnd. apply NoDup_cons in Hnd as [Hfresh Hnd].
  destruct (decide (k ≠ "self" ∧ k ∉ exclude)) as [Hc | Hc].
  - rewrite filter_cons_True by done. simpl. apply NoDup_cons. split; [ | by apply IH ].
    intros Hin. apply Hfresh. apply list_elem_of_fmap in Hin as ([k2 v2] & -> & Hin).
    apply list_elem_of_filter in Hin as [_ Hin].
    apply list_elem_of_fmap. by exists (k2, v2).
  - rewrite filter_cons_False by done. by apply IH.
Qed.

(** What [self_properties] returns, in closed form. *)
Lemma self_properties_run scope exclude save_args w :
  self_properties scope exclude save_args w
  = Ok tt
      (let w' := store_items (copied_items exclude scope) w in
       if save_args then
         {| attrs := <["_args" := VTuple (copied_items exclude scope).*2]> (attrs w');
            log := log w' ++ [EvSetattr "_args" (VTuple (copied_items exclude scope).*2)] |}
       else w').
Proof.
  unfold self_properties. destruct save_args.
  - unfold bind. by rewrite copy_saving_run.
  - apply copy_plain_run.
Qed.

(** C7, as amended.  [self_properties] returns normally.  For a mapping
    (a [dict]: no key twice), every entry whose key is not ['self'] and not
    excluded ends up on the instance under the key with one underscore put
    in front, holding the entry's value; the one exception is the name
    [_args] when [save_args] is true, which ends up holding the args tuple.
    Nothing is stored for the key ['self'] or for an excluded key (again
    [_args] apart when [save_args] is true): the stores made are exactly
    those of the copied entries, in the order of the mapping, followed by
    the one of [_args] when [save_args] is true. *)
Theorem self_properties_copies scope exclude save_args w :
  NoDup scope.*1 →
  ∃ w',
    self_properties scope exclude save_args w = Ok tt w'
    ∧ (∀ k v, (k, v) ∈ scope → k ≠ "self" → k ∉ exclude →
         save_args = false ∨ k ≠ "args" →
         attrs w' !! ("_" +:+ k) = Some v)
    ∧ (∀ k, k = "self" ∨ k ∈ exclude →
         save_args = false ∨ k ≠ "args" →
         attrs w' !! ("_" +:+ k) = attrs w !! ("_" +:+ k))
    ∧ log w' = log w
               ++ map (λ kv, EvSetattr ("_" +:+ kv.1) kv.2)
                    (filter (λ kv, kv.1 ≠ "self" ∧ kv.1 ∉ exclude) scope)
               ++ (if save_args
                   then [EvSetattr "_args"
                           (VTuple (filter (λ kv, kv.1 ≠ "self" ∧ kv.1 ∉ exclude)
                                      scope).*2)]
                   else []).
Proof.
  intros Hnd. rewrite self_properties_run. eexists. split; [ reflexivity | ].
  fold (copied_items exclude scope). fold store_event.
  assert (Hargs : ∀ k, save_args = false ∨ k ≠ "args" →
    attrs (if save_args
           then {| attrs := <["_args" := VTuple (copied_items exclude scope).*2]>
                              (attrs (store_items (copied_items exclude scope) w));
                   log := log (store_items (copied_items exclude scope) w)
                          ++ [EvSetattr "_args"
                                (VTuple (copied_items exclude scope).*2)] |}
           else store_items (copied_items exclude scope) w) !! ("_" +:+ k)
    = attrs (store_items (copied_items exclude scope) w) !! ("_" +:+ k)).
  { intros k Hk. destruct save_args; [ | done ].
    destruct Hk as [ | Hk ]; [ done | ].
    cbn [attrs]. apply lookup_insert_ne. intros [= Heq]. by apply Hk. }
  split; [ | split ].
  - intros k v Hin Hself Hex Hk. rewrite Hargs by done.
    apply store_items_lookup; [ by apply copied_items_NoDup | ].
    by apply copied_items_elem.
  - intros k Hk Hk'. rewrite Hargs by done.
    apply store_items_other. intros k' v' Hin [= Heq].
    change (k = k') in Heq. subst k'.
    apply copied_items_elem in Hin as (_ & Hself & Hex).
    by destruct Hk.
  - destruct save_args; cbn [log]; rewrite store_items_log.
    + by rewrite <- app_assoc.
    + by rewrite app_nil_r.
Qed.

(** The example of the specification: [{'self': obj, 'a': 1, 'b': 2}] with
    nothing excluded. *)
Lemma self_properties_copies_witness :
  ∃ w', self_properties [("self", VObj 0); ("a", VInt 1); ("b", VInt 2)] [] false
          Car.fresh = Ok tt w'
        ∧ attrs w' !! "_a" = Some (VInt 1)
        ∧ attrs w' !! "_b" = Some (VInt 2)
        ∧ attrs w' !! "_self" = None.
Proof.
  destruct (self_properties_copies
              [("self", VObj 0); ("a", VInt 1); ("b", VInt 2)] [] false Car.fresh)
    as (w' & Hrun & Hcopied & Hskipped & _).
  { compute_done. }
  exists w'. split; [ exact Hrun | ]. split; [ | split ].
  - apply (Hcopied "a"); [ repeat constructor | done | compute_done | by left ].
  - apply (Hcopied "b"); [ repeat constructor | done | compute_done | by left ].
  - etrans; [ apply (Hskipped "self"); by left | done ].
Defined.

(** C7 as stated fails when [save_args] is true: the entry with key
    ['args'] is copied to [_args] and then overwritten by the args tuple,
    and [_args] is stored even when ['args'] is excluded. *)
Lemma self_properties_args_counterexample :
  NoDup [("self", VObj 0); ("args", VInt 1)].*1
  ∧ attrs (final (self_properties [("self", VObj 0); ("args", VInt 1)] [] true
                    Car.fresh)) !! "_args" = Some (VTuple [VInt 1])
  ∧ attrs (final (self_properties [("self", VObj 0); ("args", VInt 1)] [] true
                    Car.fresh)) !! "_args" ≠ Some (VInt 1)
  ∧ attrs Car.fresh !! "_args" = None
  ∧ attrs (final (self_properties [("self", VObj 0); ("args", VInt 1)] ["args"] true
                    Car.fresh)) !! "_args" = Some (VTuple []).
Proof. split; [ compute_done | ]. by vm_compute. Qed.

(** C8.  With [save_args] true the instance's [_args] ends up holding the
    tuple of the values of exactly the entries whose key is not ['self']
    and not excluded, in the order of the mapping. *)
Theorem self_properties_saves_args scope exclude w :
  ∃ w',
    self_properties scope exclude true w = Ok tt w'
    ∧ attrs w' !! "_args"
      = Some (VTuple (filter (λ kv, kv.1 ≠ "self" ∧ kv.1 ∉ exclude) scope).*2).
Proof.
  rewrite self_properties_run. eexists. split; [ reflexivity | ].
  cbn [attrs]. apply lookup_insert_eq.
Qed.

(** The example of the specification: [{'self': obj, 'x': 10, 'y': 20}]
    gives [(10, 20)]. *)
Example self_properties_saves_args_example :
  attrs (final (self_properties [("self", VObj 0); ("x", VInt 10); ("y", VInt 20)]
                  [] true Car.fresh)) !! "_args"
  = Some (VTuple [VInt 10; VInt 20]).
Proof. by vm_compute. Qed.

(** ** Read-only properties *)

(** C6.  A property declared with [read_only = True] and no listener is
    built without error and has no setter; assigning to it on any instance
    raises [AttributeError] and leaves the instance, and the log, as they
    were. *)
Theorem read_only_no_setter cls self ad f :
  ∃ p, prop cls self true LAbsent ad f = inr p
       ∧ fset p = None
       ∧ ∀ v w, property_set p v w = Raise (AttributeError "can't set attribute") w.
Proof. eexists. split; [ reflexivity | ]. by split. Qed.

(** ** The events a setter adds *)

Lemma stored_events field ad new w e :
  e ∈ log (stored field ad new w) →
  e ∈ log w ∨ e = EvSetattr field new ∨ e = EvSetattr "_is_dirty" (VBool true).
Proof.
  unfold stored. destruct ad; cbn [log]; rewrite elem_of_app.
  - rewrite elem_of_cons, list_elem_of_singleton. tauto.
  - rewrite list_elem_of_singleton. tauto.
Qed.

Lemma notify_events cls name args w e :
  e ∈ log (final (notify cls name args w)) →
  e ∈ log w ∨ e = EvCall name args.
Proof.
  rewrite notify_run.
  destruct (lookup_attr cls (attrs w) name) as [ m | ]; [ | by left ].
  destruct m; try by left.
  destruct (code cls id args (attrs w)); cbn [final log];
    rewrite elem_of_app, list_elem_of_singleton; tauto.
Qed.

Lemma setter_events cls self l ad f p st w new e :
  prop cls self false l ad f = inr p →
  fset p = Some st →
  e ∈ log (final (st new w)) →
  e ∈ log w
  ∨ e = EvSetattr ("_" +:+ __name__ f) new
  ∨ e = EvSetattr "_is_dirty" (VBool true)
  ∨ (listener_truthy l = true
     ∧ e = EvCall (listener_name_of l)
             [VStr ("_" +:+ __name__ f); current cls ("_" +:+ __name__ f) w; new]).
Proof.
  intros Hp Hst. rewrite (prop_setter _ _ _ _ _ _ Hp) in Hst. injection Hst as <-.
  destruct (py_ne (current cls ("_" +:+ __name__ f) w) new) eqn:Hcmp;
    destruct (listener_truthy l).
  - rewrite (setter_listener_changed _ _ _ _ _ _ Hcmp).
    intros [ He | -> ]%notify_events; [ | by repeat right ].
    apply stored_events in He. tauto.
  - rewrite (setter_plain_changed _ _ _ _ _ Hcmp). cbn [final].
    intros He%stored_events. tauto.
  - rewrite (setter_listener_same _ _ _ _ _ _ Hcmp). by left.
  - rewrite (setter_plain_same _ _ _ _ _ Hcmp). by left.
Qed.

(** ** The name of the listener *)

(** C9.  For a property declared with [listener=True] every call the
    setter makes is to the attribute [_changed], and a value-changing write
    does look up and call [_changed].  For a property declared with a
    string as listener every call the setter makes is to the attribute of
    exactly that name, and, the string being non-empty, a value-changing
    write does look it up and call it.  (With the empty string the setter
    calls nothing.) *)
Theorem listener_method_name cls self ad f :
  (∀ p st, prop cls self false (LBool true) ad f = inr p → fset p = Some st →
     ∀ w new,
       (∀ n args, EvCall n args ∈ log (final (st new w)) →
                  EvCall n args ∈ log w ∨ n = "_changed")
       ∧ (py_ne (current cls ("_" +:+ __name__ f) w) new = true →
          st new w
          = notify cls "_changed"
              [VStr ("_" +:+ __name__ f); current cls ("_" +:+ __name__ f) w; new]
              (stored ("_" +:+ __name__ f) (_auto_dirty self || ad) new w)))
  ∧ (∀ s p st, prop cls self false (LStr s) ad f = inr p → fset p = Some st →
     ∀ w new,
       (∀ n args, EvCall n args ∈ log (final (st new w)) →
                  EvCall n args ∈ log w ∨ n = s)
       ∧ (s ≠ "" →
          py_ne (current cls ("_" +:+ __name__ f) w) new = true →
          st new w
          = notify cls s
              [VStr ("_" +:+ __name__ f); current cls ("_" +:+ __name__ f) w; new]
              (stored ("_" +:+ __name__ f) (_auto_dirty self || ad) new w))).
Proof.
  split.
  - intros p st Hp Hst w new. split.
    + intros n args Hin.
      destruct (setter_events _ _ _ _ _ _ _ _ _ _ Hp Hst Hin)
        as [ ? | [ ? | [ ? | [_ [= -> _] ] ] ] ]; try done; first [ by left | by right ].
    + intros Hcmp. rewrite (prop_setter _ _ _ _ _ _ Hp) in Hst.
      injection Hst as <-. by apply setter_listener_changed.
  - intros s p st Hp Hst w new. split.
    + intros n args Hin.
      destruct (setter_events _ _ _ _ _ _ _ _ _ _ Hp Hst Hin)
        as [ ? | [ ? | [ ? | [_ [= -> _] ] ] ] ]; try done; first [ by left | by right ].
    + intros Hs Hcmp. rewrite (prop_setter _ _ _ _ _ _ Hp) in Hst.
      assert (Hl : listener_truthy (LStr s) = true).
      { simpl. by apply negb_true_iff, String.eqb_neq. }
      rewrite Hl in Hst. injection Hst as <-. by apply setter_listener_changed.
Qed.

Lemma listener_method_name_witness :
  log (final (setter_listener Car.car "_speed" "_changed" false (VInt 50) Car.fresh))
  = [EvSetattr "_speed" (VInt 50);
     EvCall "_changed" [VStr "_speed"; VNone; VInt 50]]
  ∧ log (final (setter_listener Car.car "_speed" "_on_change" false (VInt 50)
                  Car.fresh))
    = [EvSetattr "_speed" (VInt 50);
       EvCall "_on_change" [VStr "_speed"; VNone; VInt 50]].
Proof.
  destruct (listener_method_name Car.car Car.meta false Car.speed)
    as [Hbool Hstr].
  split.
  - destruct (Hbool _ _ eq_refl eq_refl Car.fresh (VInt 50)) as [_ Hcall].
    exact (f_equal (λ r, log (final r)) (Hcall eq_refl)).
  - destruct (Hstr "_on_change" _ _ eq_refl eq_refl Car.fresh (VInt 50))
      as [_ Hcall].
    exact (f_equal (λ r, log (final r)) (Hcall ltac:(discriminate) eq_refl)).
Defined.

(** ** Assigning [None] to a property never written *)

(** C10.  For a property that is not read-only and an instance on which the
    backing field does not exist, assigning [None] changes nothing: the
    instance and the log are the same afterwards, so the backing field is
    still absent, and there was no store, no dirty flag and no listener
    call.  A read after it behaves as a read before it: it calls the
    wrapped function and, the function leaving the field absent, returns
    what the function returns. *)
Theorem assign_none_unwritten cls self l ad f p st w :
  prop cls self false l ad f = inr p →
  fset p = Some st →
  lookup_attr cls (attrs w) ("_" +:+ __name__ f) = None →
  st VNone w = Ok tt w
  ∧ lookup_attr cls (attrs (final (st VNone w))) ("_" +:+ __name__ f) = None
  ∧ ∀ g, fget p = Some g →
      g (final (st VNone w)) = g w
      ∧ log (final (g (final (st VNone w)))) = log w ++ [EvDefault (__name__ f)]
      ∧ ∀ d a, body f (attrs w) = Ok d a →
          lookup_attr cls a ("_" +:+ __name__ f) = None →
          g (final (st VNone w))
          = Ok d {| attrs := a; log := log w ++ [EvDefault (__name__ f)] |}.
Proof.
  intros Hp Hst Habs.
  assert (Hnoop : st VNone w = Ok tt w).
  { rewrite (prop_setter _ _ _ _ _ _ Hp) in Hst. injection Hst as <-.
    assert (Hcmp : py_ne (current cls ("_" +:+ __name__ f) w) VNone = false).
    { unfold current. by rewrite Habs. }
    destruct (listener_truthy l).
    - by apply setter_listener_same.
    - by apply setter_plain_same. }
  rewrite Hnoop. cbn [final]. split; [ done | ]. split; [ done | ].
  intros g Hg. rewrite (prop_getter _ _ _ _ _ _ _ Hp) in Hg. injection Hg as <-.
  split; [ done | ]. rewrite getter_run.
  destruct (body f (attrs w)) as [ d a | e a ]; (split; [ done | ]).
  - intros d' a' [= <- <-] Ha. by rewrite Ha.
  - by intros d' a' [= ].
Qed.

Lemma assign_none_unwritten_witness :
  setter_listener Car.car "_speed" "_on_change" true VNone Car.fresh
  = Ok tt Car.fresh
  ∧ (let! d := call_function Car.speed in getattr_default Car.car "_speed" d)
      Car.fresh
    = Ok (VInt 0) {| attrs := ∅; log := [EvDefault "speed"] |}.
Proof.
  destruct (assign_none_unwritten Car.car Car.meta (LStr "_on_change") true
              Car.speed _ _ Car.fresh eq_refl eq_refl eq_refl)
    as (Hnoop & _ & Hread).
  split; [ exact Hnoop | ].
  destruct (Hread _ eq_refl) as (_ & _ & Hdefault).
  exact (Hdefault (VInt 0) ∅ eq_refl eq_refl).
Defined.

(** ** The dirty flag *)

Lemma self_properties_events scope exclude save_args w e :
  e ∈ log (final (self_properties scope exclude save_args w)) →
  e ∈ log w
  ∨ (∃ k v, (k, v) ∈ copied_items exclude scope ∧ e = EvSetattr ("_" +:+ k) v)
  ∨ e = EvSetattr "_args" (VTuple (copied_items exclude scope).*2).
Proof.
  rewrite self_properties_run. cbn [final].
  assert (Hitems : e ∈ log (store_items (copied_items exclude scope) w) →
    e ∈ log w
    ∨ ∃ k v, (k, v) ∈ copied_items exclude scope ∧ e = EvSetattr ("_" +:+ k) v).
  { rewrite store_items_log, elem_of_app, list_elem_of_fmap.
    intros [ ? | ([k v] & -> & Hin) ]; [ by left | right ]. by exists k, v. }
  destruct save_args; cbn [log].
  - rewrite elem_of_app, list_elem_of_singleton. intros [ He | -> ]; [ | tauto ].
    apply Hitems in He. tauto.
  - intros He. apply Hitems in He. tauto.
Qed.

Lemma self_properties_keeps scope exclude save_args w (n : string) :
  (∀ k v, (k, v) ∈ scope → k ≠ "self" → k ∉ exclude → n ≠ "_" +:+ k) →
  n ≠ "_args" →
  attrs (final (self_properties scope exclude save_args w)) !! n = attrs w !! n.
Proof.
  intros Hn Hargs. rewrite self_properties_run. cbn [final].
  assert (Hitems : attrs (store_items (copied_items exclude scope) w) !! n
                   = attrs w !! n).
  { apply store_items_other. intros k v (Hin & Hself & Hex)%copied_items_elem.
    by apply Hn with v. }
  destruct save_args; [ | done ].
  cbn [attrs]. by rewrite lookup_insert_ne.
Qed.

(** C5, as amended.  When auto-dirty is active for a property (by its own
    declaration or by the default of the declaration context), a
    value-changing write stores [True] in [_is_dirty] right after the store
    into the backing field, before any listener is looked up.  The utility
    itself never stores anything but [True] in [_is_dirty], with one
    exception: a store whose own target is [_is_dirty], made by the setter
    of a property named [is_dirty] or by the bulk initializer for an entry
    with key ['is_dirty'].  Without that exception, a setter without
    listener and the bulk initializer leave a set flag set.  (A listener is
    user code and may do anything to the flag.) *)
Theorem dirty_flag_set_never_cleared cls self l ad f p st :
  prop cls self false l ad f = inr p →
  fset p = Some st →
  (_auto_dirty self || ad = true →
   ∀ w new, py_ne (current cls ("_" +:+ __name__ f) w) new = true →
     ∃ w1,
       attrs w1 !! "_is_dirty" = Some (VBool true)
       ∧ log w1 = log w ++ [EvSetattr ("_" +:+ __name__ f) new;
                            EvSetattr "_is_dirty" (VBool true)]
       ∧ if listener_truthy l
         then st new w
              = notify cls (listener_name_of l)
                  [VStr ("_" +:+ __name__ f);
                   current cls ("_" +:+ __name__ f) w; new] w1
         else st new w = Ok tt w1)
  ∧ (__name__ f ≠ "is_dirty" →
     ∀ w new e, e ∈ log (final (st new w)) → clears_dirty_flag e → e ∈ log w)
  ∧ (∀ g, fget p = Some g →
     ∀ w e, e ∈ log (final (g w)) → clears_dirty_flag e → e ∈ log w)
  ∧ (∀ scope exclude save_args w e,
       (∀ v, ("is_dirty", v) ∈ scope → "is_dirty" ∈ exclude) →
       e ∈ log (final (self_properties scope exclude save_args w)) →
       clears_dirty_flag e → e ∈ log w)
  ∧ (listener_truthy l = false → __name__ f ≠ "is_dirty" →
     ∀ w new, attrs w !! "_is_dirty" = Some (VBool true) →
       attrs (final (st new w)) !! "_is_dirty" = Some (VBool true))
  ∧ (∀ scope exclude save_args w,
       (∀ v, ("is_dirty", v) ∈ scope → "is_dirty" ∈ exclude) →
       attrs w !! "_is_dirty" = Some (VBool true) →
       attrs (final (self_properties scope exclude save_args w)) !! "_is_dirty"
       = Some (VBool true)).
Proof.
  intros Hp Hst. split; [ | split; [ | split; [ | split; [ | split ] ] ] ].
  - intros Hdirty w new Hcmp.
    rewrite (prop_setter _ _ _ _ _ _ Hp), Hdirty in Hst. injection Hst as <-.
    exists (stored ("_" +:+ __name__ f) true new w).
    split; [ apply lookup_insert_eq | ]. split; [ done | ].
    destruct (listener_truthy l).
    + by apply setter_listener_changed.
    + by apply setter_plain_changed.
  - intros Hname w new e Hin (v & -> & Hv).
    destruct (setter_events _ _ _ _ _ _ _ _ _ _ Hp Hst Hin)
      as [ ? | [ [= Heq _] | [ [= ->] | [_ [= ] ] ] ] ]; [ done | | done ].
    by destruct Hname.
  - intros g Hg w e Hin (v & -> & Hv).
    rewrite (prop_getter _ _ _ _ _ _ _ Hp) in Hg. injection Hg as <-.
    rewrite getter_run in Hin.
    destruct (body f (attrs w)); cbn [final log] in Hin;
      apply elem_of_app in Hin as [ ? | [= ]%list_elem_of_singleton ]; done.
  - intros scope exclude save_args w e Hkey Hin (v & -> & Hv).
    destruct (self_properties_events _ _ _ _ _ Hin)
      as [ ? | [ (k & v' & Hk & [= Heq ->]) | [= ] ] ]; [ done | ].
    change ("is_dirty" = k) in Heq. subst k.
    apply copied_items_elem in Hk as (Hk & _ & Hex).
    destruct Hex. by apply Hkey with v'.
  - intros Hl Hname w new Hflag.
    rewrite (prop_setter _ _ _ _ _ _ Hp), Hl in Hst. injection Hst as <-.
    destruct (py_ne (current cls ("_" +:+ __name__ f) w) new) eqn:Hcmp.
    + rewrite (setter_plain_changed _ _ _ _ _ Hcmp). cbn [final]. unfold stored.
      destruct (_auto_dirty self || ad); cbn [attrs].
      * apply lookup_insert_eq.
      * rewrite lookup_insert_ne; [ done | ].
        by apply backing_field_not_dirty_flag.
    + by rewrite (setter_plain_same _ _ _ _ _ Hcmp).
  - intros scope exclude save_args w Hkey Hflag.
    rewrite self_properties_keeps; [ done | | done ].
    intros k v Hin Hself Hex [= Heq]. change ("is_dirty" = k) in Heq. subst k.
    apply Hex. by apply Hkey with v.
Qed.

(** The scenario of the specification: [speed] declared with
    [auto_dirty=True] and no listener; after one value-changing write the
    flag is [True]. *)
Lemma dirty_flag_set_never_cleared_witness :
  (∃ w1, setter_plain Car.car "_speed" true (VInt 50) Car.fresh = Ok tt w1
         ∧ attrs w1 !! "_is_dirty" = Some (VBool true))
  ∧ attrs (final (setter_plain Car.car "_speed" true (VInt 0) Car.dirty))
      !! "_is_dirty" = Some (VBool true)
  ∧ attrs (final (self_properties [("self", VObj 0); ("brand", VStr "Ford")] []
                    true Car.dirty)) !! "_is_dirty" = Some (VBool true).
Proof.
  destruct (dirty_flag_set_never_cleared Car.car Car.meta LAbsent true Car.speed
              _ _ eq_refl eq_refl) as (Hset & _ & _ & _ & Hsetter & Hbulk).
  split; [ | split ].
  - destruct (Hset eq_refl Car.fresh (VInt 50) eq_refl)
      as (w1 & Hflag & _ & Hrun).
    exists w1. split; [ exact Hrun | exact Hflag ].
  - apply (Hsetter eq_refl); [ discriminate | reflexivity ].
  - apply Hbulk; [ | reflexivity ].
    intros v Hin. exfalso.
    apply elem_of_cons in Hin as [ [= ] | Hin ].
    apply elem_of_cons in Hin as [ [= ] | Hin ].
    by apply not_elem_of_nil in Hin.
Defined.

(** C5 as stated fails: the utility does clear a set dirty flag when the
    store it makes is aimed at [_is_dirty] itself.  The bulk initializer
    does so for an entry with key ['is_dirty'], and the setter of a
    property named [is_dirty] does so when [False] is assigned. *)
Lemma dirty_flag_cleared_counterexample :
  attrs Car.dirty !! "_is_dirty" = Some (VBool true)
  ∧ attrs (final (self_properties [("self", VObj 0); ("is_dirty", VBool false)]
                    [] false Car.dirty)) !! "_is_dirty" = Some (VBool false)
  ∧ ∃ p st, prop Car.car Car.meta false LAbsent false Car.is_dirty = inr p
            ∧ fset p = Some st
            ∧ attrs (final (st (VBool false) Car.dirty)) !! "_is_dirty"
              = Some (VBool false).
Proof.
  split; [ done | ]. split; [ by vm_compute | ].
  eexists _, _. split; [ reflexivity | ]. split; [ reflexivity | ]. by vm_compute.
Qed.

(** * Further properties of the property builder *)

(** ** Declarations *)

(** X1.  The check of [read_only] against the listener is the only way a
    declaration fails.  Every other declaration returns a property that has
    a getter, has a setter exactly when it is not read-only, has no
    deleter, and carries the docstring of the wrapped function. *)
Theorem declaration_outcome cls self ro l ad f :
  (ro && listener_truthy l = true →
   ∃ msg, prop cls self ro l ad f = inl (ValueError msg))
  ∧ (ro && listener_truthy l = false →
     ∃ p, prop cls self ro l ad f = inr p
          ∧ is_Some (fget p)
          ∧ (fset p = None ↔ ro = true)
          ∧ fdel p = None
          ∧ fdoc p = __doc__ f).
Proof.
  unfold prop. split; intros Hchk; rewrite Hchk; [ by eexists | ].
  eexists. split; [ reflexivity | ]. cbn [fget fset fdel fdoc].
  split; [ by eexists | ]. split; [ | done ].
  destruct ro; [ done | ]. by destruct (listener_truthy l).
Qed.

Lemma declaration_outcome_witness :
  (∃ msg, prop Car.car Car.meta true (LBool true) false Car.brand
          = inl (ValueError msg))
  ∧ (∃ p, prop Car.car Car.meta true (LBool false) false Car.brand = inr p
          ∧ fset p = None ∧ fdoc p = Some "Brand").
Proof.
  split.
  - exact (proj1 (declaration_outcome Car.car Car.meta true (LBool true) false
                    Car.brand) eq_refl).
  - destruct (proj2 (declaration_outcome Car.car Car.meta true (LBool false)
                       false Car.brand) eq_refl)
      as (p & Hp & _ & Hset & _ & Hdoc).
    exists p. split; [ exact Hp | ]. split; [ by apply Hset | exact Hdoc ].
Defined.

(** X2.  A declaration looks at its context only for the auto-dirty
    default, which is or-ed with its own [auto_dirty] argument; the scope
    and the variable name are never consulted.  So leaving the [with] block
    ([__exit__], which drops the scope and the name, once or repeatedly)
    does not disable or change later declarations, and inside a context
    whose default is true a declaration cannot opt out with
    [auto_dirty=False]. *)
Theorem declaration_context cls self self' ro l ad ad' f :
  _auto_dirty self || ad = _auto_dirty self' || ad' →
  prop cls self ro l ad f = prop cls self' ro l ad' f
  ∧ prop cls (properties_exit (properties_enter self)) ro l ad f
    = prop cls self ro l ad f
  ∧ properties_exit (properties_exit self) = properties_exit self
  ∧ _scope (properties_exit self) = None
  ∧ _var (properties_exit self) = None
  ∧ (_auto_dirty self = true →
     prop cls self ro l false f = prop cls self ro l true f).
Proof.
  intros Had. split; [ | split; [ done | split; [ done | split; [ done | split; [ done | ] ] ] ] ].
  - unfold prop. by rewrite Had.
  - intros Hdef. unfold prop. by rewrite Hdef.
Qed.

Lemma declaration_context_witness :
  prop Car.car (properties_init [("x", VInt 1)] "meta" true) false LAbsent false
    Car.speed
  = prop Car.car (properties_exit (properties_init [] "other" false)) false
      LAbsent true Car.speed.
Proof.
  exact (proj1 (declaration_context Car.car
                  (properties_init [("x", VInt 1)] "meta" true)
                  (properties_exit (properties_init [] "other" false))
                  false LAbsent false true Car.speed eq_refl)).
Defined.

(** X3.  No declared property has a deleter: [del inst.x] raises
    [AttributeError] for every declaration and leaves the instance as it
    was. *)
Theorem declared_property_not_deletable cls self ro l ad f p w :
  prop cls self ro l ad f = inr p →
  property_delete p w = Raise (AttributeError "can't delete attribute") w.
Proof.
  unfold prop. destruct (ro && listener_truthy l); [ done | ].
  by intros [= <-].
Qed.

Lemma declared_property_not_deletable_witness :
  ∃ p, prop Car.car Car.meta false (LStr "_on_change") true Car.speed = inr p
       ∧ property_delete p Car.moving
         = Raise (AttributeError "can't delete attribute") Car.moving.
Proof.
  eexists. split; [ reflexivity | ].
  exact (declared_property_not_deletable Car.car Car.meta false
           (LStr "_on_change") true Car.speed _ Car.moving eq_refl).
Defined.

(** ** Setters *)

Lemma py_ne_None (v : value) : v ≠ VNone → py_ne VNone v = true.
Proof. intros Hv. by destruct v. Qed.

Lemma stored_other field ad new w (n : string) :
  n ≠ field → ad = false ∨ n ≠ "_is_dirty" →
  attrs (stored field ad new w) !! n = attrs w !! n.
Proof.
  intros Hn Hd. unfold stored. destruct ad; cbn [attrs].
  - destruct Hd as [ | Hd ]; [ done | ].
    rewrite lookup_insert_ne by done. by rewrite lookup_insert_ne.
  - by rewrite lookup_insert_ne.
Qed.

Lemma stored_other_self field ad new w :
  ad = false ∨ field ≠ "_is_dirty" →
  attrs (stored field ad new w) !! field = Some new.
Proof.
  intros Hd. unfold stored. destruct ad; cbn [attrs].
  - destruct Hd as [ | Hd ]; [ done | ].
    rewrite lookup_insert_ne by done. apply lookup_insert_eq.
  - apply lookup_insert_eq.
Qed.

(** X4.  The setter of a property without listener always returns
    normally and calls nothing: neither a method of the instance nor the
    wrapped default function.  It leaves every attribute other than the
    backing field and [_is_dirty] as it was, and without auto-dirty every
    attribute other than the backing field. *)
Theorem plain_setter_effects cls self l ad f p st w new :
  prop cls self false l ad f = inr p →
  fset p = Some st →
  listener_truthy l = false →
  ∃ w1,
    st new w = Ok tt w1
    ∧ (∀ n args, EvCall n args ∈ log w1 → EvCall n args ∈ log w)
    ∧ (∀ fn, EvDefault fn ∈ log w1 → EvDefault fn ∈ log w)
    ∧ (∀ n : string, n ≠ "_" +:+ __name__ f → n ≠ "_is_dirty" →
         attrs w1 !! n = attrs w !! n)
    ∧ (_auto_dirty self || ad = false →
       ∀ n : string, n ≠ "_" +:+ __name__ f → attrs w1 !! n = attrs w !! n).
Proof.
  intros Hp Hst Hl.
  rewrite (prop_setter _ _ _ _ _ _ Hp), Hl in Hst. injection Hst as <-.
  destruct (py_ne (current cls ("_" +:+ __name__ f) w) new) eqn:Hcmp.
  - rewrite (setter_plain_changed _ _ _ _ _ Hcmp). eexists. split; [ done | ].
    split; [ | split; [ | split ] ].
    + intros n args [ ? | [ [= ] | [= ] ] ]%stored_events. done.
    + intros fn [ ? | [ [= ] | [= ] ] ]%stored_events. done.
    + intros n Hn Hd. apply stored_other; [ done | by right ].
    + intros Hoff n Hn. rewrite Hoff. by apply stored_other; [ | left ].
  - rewrite (setter_plain_same _ _ _ _ _ Hcmp). by eexists.
Qed.

Lemma plain_setter_effects_witness :
  ∃ w1, setter_plain Car.car "_speed" false (VInt 10) Car.dirty = Ok tt w1
        ∧ attrs w1 !! "_is_dirty" = Some (VBool true)
        ∧ attrs w1 !! "_brand" = None.
Proof.
  destruct (plain_setter_effects Car.car Car.meta LAbsent false Car.speed _ _
              Car.dirty (VInt 10) eq_refl eq_refl eq_refl)
    as (w1 & Hrun & _ & _ & _ & Hframe).
  exists w1. split; [ exact Hrun | ]. split.
  - etrans; [ apply (Hframe eq_refl "_is_dirty"); discriminate | done ].
  - etrans; [ apply (Hframe eq_refl "_brand"); discriminate | done ].
Defined.

(** X5.  When auto-dirty is active neither by the declaration nor by the
    context, the only store a setter makes, with or without listener, is
    the one of the new value into the backing field.  So it stores nothing
    into [_is_dirty], unless [_is_dirty] is the backing field itself, which
    is the case of a property named [is_dirty]. *)
Theorem setter_without_auto_dirty cls self l ad f p st w new :
  prop cls self false l ad f = inr p →
  fset p = Some st →
  _auto_dirty self || ad = false →
  (∀ n v, EvSetattr n v ∈ log (final (st new w)) →
          EvSetattr n v ∈ log w ∨ (n = "_" +:+ __name__ f ∧ v = new))
  ∧ (__name__ f ≠ "is_dirty" →
     ∀ v, EvSetattr "_is_dirty" v ∈ log (final (st new w)) →
          EvSetattr "_is_dirty" v ∈ log w).
Proof.
  intros Hp Hst Hoff.
  assert (Honly : ∀ n v, EvSetattr n v ∈ log (final (st new w)) →
                  EvSetattr n v ∈ log w ∨ (n = "_" +:+ __name__ f ∧ v = new)).
  { intros n v.
    rewrite (prop_setter _ _ _ _ _ _ Hp), Hoff in Hst. injection Hst as <-.
    destruct (py_ne (current cls ("_" +:+ __name__ f) w) new) eqn:Hcmp;
      destruct (listener_truthy l).
    - rewrite (setter_listener_changed _ _ _ _ _ _ Hcmp).
      intros [ He | [= ] ]%notify_events. revert He. unfold stored. cbn [log].
      rewrite elem_of_app, list_elem_of_singleton.
      intros [ ? | [= -> ->] ]; [ by left | by right ].
    - rewrite (setter_plain_changed _ _ _ _ _ Hcmp). unfold stored.
      cbn [final log]. rewrite elem_of_app, list_elem_of_singleton.
      intros [ ? | [= -> ->] ]; [ by left | by right ].
    - rewrite (setter_listener_same _ _ _ _ _ _ Hcmp). by left.
    - rewrite (setter_plain_same _ _ _ _ _ Hcmp). by left. }
  split; [ exact Honly | ].
  intros Hname v Hin. destruct (Honly _ _ Hin) as [ ? | [Heq _] ]; [ done | ].
  symmetry in Heq. by apply backing_field_not_dirty_flag in Heq.
Qed.

Lemma setter_without_auto_dirty_witness :
  EvSetattr "_speed" (VInt 50)
  ∈ log (final (setter_listener Car.car "_speed" "_on_change" false (VInt 50)
                  Car.fresh))
  ∧ (EvSetattr "_speed" (VInt 50) ∈ log Car.fresh
     ∨ ("_speed" = "_speed" ∧ VInt 50 = VInt 50)).
Proof.
  assert (Hin : EvSetattr "_speed" (VInt 50)
                ∈ log (final (setter_listener Car.car "_speed" "_on_change" false
                                (VInt 50) Car.fresh))).
  { apply list_elem_of_here. }
  split; [ exact Hin | ].
  exact (proj1 (setter_without_auto_dirty Car.car Car.meta (LStr "_on_change")
                  false Car.speed _ _ Car.fresh (VInt 50) eq_refl eq_refl eq_refl)
           "_speed" (VInt 50) Hin).
Defined.

(** X6.  A setter takes [None], not the value the getter would return, as
    the current value of a backing field that does not exist.  So the first
    assignment of any value other than [None] is value-changing, whatever
    the wrapped default function returns: the value is stored, and a
    listener is looked up and called with [None] as old value. *)
Theorem first_write_stores cls self l ad f p st w new :
  prop cls self false l ad f = inr p →
  fset p = Some st →
  lookup_attr cls (attrs w) ("_" +:+ __name__ f) = None →
  new ≠ VNone →
  st new w
  = (if listener_truthy l
     then notify cls (listener_name_of l) [VStr ("_" +:+ __name__ f); VNone; new]
     else ret tt)
      (stored ("_" +:+ __name__ f) (_auto_dirty self || ad) new w).
Proof.
  intros Hp Hst Habs Hnew.
  rewrite (prop_setter _ _ _ _ _ _ Hp) in Hst. injection Hst as <-.
  assert (Hcur : current cls ("_" +:+ __name__ f) w = VNone).
  { unfold current. by rewrite Habs. }
  assert (Hcmp : py_ne (current cls ("_" +:+ __name__ f) w) new = true).
  { rewrite Hcur. by apply py_ne_None. }
  destruct (listener_truthy l).
  - rewrite (setter_listener_changed _ _ _ _ _ _ Hcmp). by rewrite Hcur.
  - by apply setter_plain_changed.
Qed.

(** The first loop of the example of the source starts with
    [mycar.speed = 0] on a new car: 0 is what the getter returns, and still
    the listener is called. *)
Lemma first_write_stores_witness :
  (let! d := call_function Car.speed in getattr_default Car.car "_speed" d)
    Car.fresh
  = Ok (VInt 0) {| attrs := ∅; log := [EvDefault "speed"] |}
  ∧ setter_listener Car.car "_speed" "_on_change" false (VInt 0) Car.fresh
    = Ok tt {| attrs := {["_speed" := VInt 0]};
               log := [EvSetattr "_speed" (VInt 0);
                       EvCall "_on_change" [VStr "_speed"; VNone; VInt 0]] |}.
Proof.
  split; [ reflexivity | ].
  exact (first_write_stores Car.car Car.meta (LStr "_on_change") false Car.speed
           _ _ Car.fresh (VInt 0) eq_refl eq_refl eq_refl ltac:(discriminate)).
Defined.

(** X7.  The stores of a value-changing write are not undone when the
    listener cannot be called.  If the listener name resolves to nothing
    callable, the assignment raises ([AttributeError] for a missing name,
    [TypeError] for a value that is not callable) with the new value, and
    the dirty flag if active, already on the instance.  For a value that
    compares equal to itself (every value but a NaN), assigning it again is
    then a no-op, so that change is never notified; auto-dirty on a
    property named [is_dirty] is excluded from this last part. *)
Theorem listener_failure_keeps_write cls self l ad f p st w new :
  prop cls self false l ad f = inr p →
  fset p = Some st →
  listener_truthy l = true →
  py_ne (current cls ("_" +:+ __name__ f) w) new = true →
  (∀ id, lookup_attr cls
           (attrs (stored ("_" +:+ __name__ f) (_auto_dirty self || ad) new w))
           (listener_name_of l) ≠ Some (VFun id)) →
  ∃ e,
    st new w = Raise e (stored ("_" +:+ __name__ f) (_auto_dirty self || ad) new w)
    ∧ (e = AttributeError (listener_name_of l)
       ∨ e = TypeError "object is not callable")
    ∧ (py_ne new new = false →
       _auto_dirty self || ad = false ∨ __name__ f ≠ "is_dirty" →
       st new (stored ("_" +:+ __name__ f) (_auto_dirty self || ad) new w)
       = Ok tt (stored ("_" +:+ __name__ f) (_auto_dirty self || ad) new w)).
Proof.
  intros Hp Hst Hl Hcmp Hbad.
  rewrite (prop_setter _ _ _ _ _ _ Hp), Hl in Hst. injection Hst as <-.
  assert (Hretry :
    py_ne new new = false →
    _auto_dirty self || ad = false ∨ __name__ f ≠ "is_dirty" →
    setter_listener cls ("_" +:+ __name__ f) (listener_name_of l)
      (_auto_dirty self || ad) new
      (stored ("_" +:+ __name__ f) (_auto_dirty self || ad) new w)
    = Ok tt (stored ("_" +:+ __name__ f) (_auto_dirty self || ad) new w)).
  { intros Hrefl Hname. apply setter_listener_same.
    rewrite current_stored; [ done | ].
    destruct Hname as [ Hoff | Hname ]; [ by left | right ].
    by apply backing_field_not_dirty_flag. }
  rewrite (setter_listener_changed _ _ _ _ _ _ Hcmp), notify_run.
  destruct (lookup_attr cls _ (listener_name_of l)) as [ m | ] eqn:Hm.
  - destruct m; try (eexists; split; [ reflexivity | split; [ by right | done ] ]).
    by destruct (Hbad id).
  - eexists. split; [ reflexivity | ]. split; [ by left | done ].
Qed.

Lemma listener_failure_keeps_write_witness :
  ∃ w1, setter_listener Car.car "_speed" "_missing" true (VInt 50) Car.fresh
        = Raise (AttributeError "_missing") w1
        ∧ attrs w1 !! "_speed" = Some (VInt 50)
        ∧ setter_listener Car.car "_speed" "_missing" true (VInt 50) w1
          = Ok tt w1.
Proof.
  destruct (listener_failure_keeps_write Car.car Car.meta (LStr "_missing") true
              Car.speed _ _ Car.fresh (VInt 50) eq_refl eq_refl eq_refl eq_refl)
    as (e & Hrun & _ & Hretry).
  { intros id. discriminate. }
  eexists. split; [ reflexivity | ]. split; [ reflexivity | ].
  apply Hretry; [ reflexivity | right; discriminate ].
Defined.

(** X8.  The two setters the decorator can generate make the same stores:
    for one function declared once with a listener and once without, in
    contexts with the same auto-dirty outcome, the setter with listener
    does what the setter without does and then, if the value changed, looks
    the listener up and calls it in the instance the other setter ends in. *)
Theorem setter_paths_agree cls self l1 l2 ad f p1 p2 st1 st2 w new :
  prop cls self false l1 ad f = inr p1 → fset p1 = Some st1 →
  prop cls self false l2 ad f = inr p2 → fset p2 = Some st2 →
  listener_truthy l1 = true →
  listener_truthy l2 = false →
  st1 new w
  = if py_ne (current cls ("_" +:+ __name__ f) w) new
    then notify cls (listener_name_of l1)
           [VStr ("_" +:+ __name__ f); current cls ("_" +:+ __name__ f) w; new]
           (final (st2 new w))
    else st2 new w.
Proof.
  intros Hp1 Hst1 Hp2 Hst2 Hl1 Hl2.
  rewrite (prop_setter _ _ _ _ _ _ Hp1), Hl1 in Hst1. injection Hst1 as <-.
  rewrite (prop_setter _ _ _ _ _ _ Hp2), Hl2 in Hst2. injection Hst2 as <-.
  destruct (py_ne (current cls ("_" +:+ __name__ f) w) new) eqn:Hcmp.
  - rewrite (setter_plain_changed _ _ _ _ _ Hcmp).
    by apply setter_listener_changed.
  - rewrite (setter_plain_same _ _ _ _ _ Hcmp).
    by apply setter_listener_same.
Qed.

Lemma setter_paths_agree_witness :
  attrs (final (setter_listener Car.car "_speed" "_on_change" true (VInt 50)
                  Car.fresh))
  = attrs (final (setter_plain Car.car "_speed" true (VInt 50) Car.fresh)).
Proof.
  rewrite (setter_paths_agree Car.car Car.meta (LStr "_on_change") LAbsent true
             Car.speed _ _ (setter_listener Car.car "_speed" "_on_change" true)
             (setter_plain Car.car "_speed" true) Car.fresh (VInt 50)
             eq_refl eq_refl eq_refl eq_refl eq_refl eq_refl).
  reflexivity.
Defined.

(** X9.  Write, then read.  After an assignment through a setter without
    listener the backing field exists: it holds the assigned value itself
    if the write was value-changing, and otherwise the value it had, which
    then compares equal to the assigned one.  A read (with a wrapped
    function that leaves the instance alone) returns that value.  Two cases
    are excluded: assigning [None] to a backing field that does not exist,
    which stores nothing, and auto-dirty on a property named [is_dirty]. *)
Theorem write_then_read cls self l ad f p st g w new :
  prop cls self false l ad f = inr p →
  fset p = Some st →
  fget p = Some g →
  listener_truthy l = false →
  _auto_dirty self || ad = false ∨ __name__ f ≠ "is_dirty" →
  is_Some (lookup_attr cls (attrs w) ("_" +:+ __name__ f)) ∨ new ≠ VNone →
  ∃ w1 v,
    st new w = Ok tt w1
    ∧ lookup_attr cls (attrs w1) ("_" +:+ __name__ f) = Some v
    ∧ (if py_ne (current cls ("_" +:+ __name__ f) w) new
       then v = new
       else lookup_attr cls (attrs w) ("_" +:+ __name__ f) = Some v
            ∧ py_eq v new = true)
    ∧ ∀ d, body f (attrs w1) = Ok d (attrs w1) →
           g w1 = Ok v {| attrs := attrs w1;
                          log := log w1 ++ [EvDefault (__name__ f)] |}.
Proof.
  intros Hp Hst Hg Hl Hname Hdef.
  rewrite (prop_setter _ _ _ _ _ _ Hp), Hl in Hst. injection Hst as <-.
  rewrite (prop_getter _ _ _ _ _ _ _ Hp) in Hg. injection Hg as <-.
  assert (Hread : ∀ w1 v,
    lookup_attr cls (attrs w1) ("_" +:+ __name__ f) = Some v →
    ∀ d, body f (attrs w1) = Ok d (attrs w1) →
      (let! d := call_function f in getattr_default cls ("_" +:+ __name__ f) d) w1
      = Ok v {| attrs := attrs w1; log := log w1 ++ [EvDefault (__name__ f)] |}).
  { intros w1 v Hv d Hf. rewrite getter_run, Hf. by rewrite Hv. }
  destruct (py_ne (current cls ("_" +:+ __name__ f) w) new) eqn:Hcmp.
  - exists (stored ("_" +:+ __name__ f) (_auto_dirty self || ad) new w), new.
    assert (Hv : lookup_attr cls
                   (attrs (stored ("_" +:+ __name__ f) (_auto_dirty self || ad)
                             new w)) ("_" +:+ __name__ f) = Some new).
    { unfold lookup_attr. rewrite stored_other_self; [ done | ].
      destruct Hname as [ Hoff | Hname ]; [ by left | right ].
      by apply backing_field_not_dirty_flag. }
    split; [ by apply setter_plain_changed | ]. split; [ exact Hv | ].
    split; [ done | ]. by apply Hread.
  - destruct (lookup_attr cls (attrs w) ("_" +:+ __name__ f)) as [ v | ] eqn:Hv.
    + exists w, v. split; [ by apply setter_plain_same | ]. split; [ done | ].
      split; [ | by apply Hread ]. split; [ done | ].
      unfold current in Hcmp. rewrite Hv in Hcmp. simpl in Hcmp.
      by apply negb_false_iff.
    + destruct Hdef as [ [? [= ]] | Hnew ].
      unfold current in Hcmp. rewrite Hv in Hcmp. simpl in Hcmp.
      by rewrite py_ne_None in Hcmp.
Qed.

Lemma write_then_read_witness :
  ∃ w1, setter_plain Car.car "_speed" true (VInt 50) Car.fresh = Ok tt w1
        ∧ (let! d := call_function Car.speed in
           getattr_default Car.car "_speed" d) w1
          = Ok (VInt 50) {| attrs := attrs w1;
                            log := log w1 ++ [EvDefault "speed"] |}.
Proof.
  destruct (write_then_read Car.car Car.meta LAbsent true Car.speed _ _ _
              Car.fresh (VInt 50) eq_refl eq_refl eq_refl eq_refl)
    as (w1 & v & Hrun & _ & Hnew & Hread).
  { right. discriminate. }
  { right. discriminate. }
  exists w1. split; [ exact Hrun | ].
  change (v = VInt 50) in Hnew. rewrite <- Hnew. exact (Hread (VInt 0) eq_refl).
Defined.

(** ** Getters *)



(** * Further properties of the bulk initializer *)

(** X11.  The two loops of [self_properties] copy the same entries: a call
    with [save_args=True] leaves the instance as the call with
    [save_args=False] does, with [_args] then set to the args tuple, and it
    makes the same stores followed by that of [_args]. *)
Theorem self_properties_branches_agree scope exclude w :
  attrs (final (self_properties scope exclude true w))
  = <["_args" := VTuple (filter (λ kv, kv.1 ≠ "self" ∧ kv.1 ∉ exclude) scope).*2]>
      (attrs (final (self_properties scope exclude false w)))
  ∧ log (final (self_properties scope exclude true w))
    = log (final (self_properties scope exclude false w))
      ++ [EvSetattr "_args"
            (VTuple (filter (λ kv, kv.1 ≠ "self" ∧ kv.1 ∉ exclude) scope).*2)].
Proof. by rewrite !self_properties_run. Qed.

(** X12.  [self_properties] keeps what is already on the instance: an
    attribute whose name is not that of a copied entry (underscore and
    key), and is not [_args], has the same value, or the same absence,
    after the call as before. *)
Theorem self_properties_frame scope exclude save_args w (n : string) :
  (∀ k v, (k, v) ∈ scope → k ≠ "self" → k ∉ exclude → n ≠ "_" +:+ k) →
  n ≠ "_args" →
  attrs (final (self_properties scope exclude save_args w)) !! n = attrs w !! n.
Proof. apply self_properties_keeps. Qed.

Lemma self_properties_frame_witness :
  attrs (final (self_properties [("self", VObj 0); ("brand", VStr "Ford")] []
                  true Car.moving)) !! "_speed" = Some (VInt 50).
Proof.
  etrans; [ apply self_properties_frame | reflexivity ]; [ | discriminate ].
  intros k v Hin _ _.
  apply elem_of_cons in Hin as [ [= -> _] | Hin ]; [ discriminate | ].
  apply elem_of_cons in Hin as [ [= -> _] | Hin ]; [ discriminate | ].
  by apply not_elem_of_nil in Hin.
Defined.

Lemma store_items_cases items w (n : string) :
  (attrs (store_items items w) !! n = attrs w !! n
   ∧ ∀ k v, (k, v) ∈ items → n ≠ "_" +:+ k)
  ∨ ∃ v, ∀ w', attrs (store_items items w') !! n = Some v.
Proof.
  revert w. induction items as [ | [k v] rest IH ]; intros w.
  { left. split; [ done | ]. intros k v Hin. by apply not_elem_of_nil in Hin. }
  destruct (IH {| attrs := <["_" +:+ k := v]> (attrs w);
                  log := log w ++ [store_event (k, v)] |})
    as [ [Hsame Hnot] | [v' Hv'] ].
  - destruct (decide (n = "_" +:+ k)) as [ -> | Hn ].
    + right. exists v. intros w'. rewrite store_items_cons.
      rewrite store_items_other by done. cbn [attrs fst snd].
      apply lookup_insert_eq.
    + left. rewrite store_items_cons. cbn [fst snd]. split.
      * rewrite Hsame. cbn [attrs]. by rewrite lookup_insert_ne.
      * intros k' v0 [ [= -> ->] | Hin ]%elem_of_cons; [ done | ].
        by apply Hnot with v0.
  - right. exists v'. intros w'. rewrite store_items_cons. apply Hv'.
Qed.

(** X13.  Calling [self_properties] a second time with the same arguments
    leaves the instance as the first call left it; this holds for every
    mapping, exclusion and [save_args]. *)
Theorem self_properties_idempotent scope exclude save_args w :
  attrs (final (self_properties scope exclude save_args
                  (final (self_properties scope exclude save_args w))))
  = attrs (final (self_properties scope exclude save_args w)).
Proof.
  rewrite !self_properties_run. cbn [final].
  set (items := copied_items exclude scope).
  assert (Hloop : ∀ w2 (n : string),
    attrs w2 !! n = attrs (store_items items w) !! n →
    attrs (store_items items w2) !! n = attrs (store_items items w) !! n).
  { intros w2 n Hw2.
    destruct (store_items_cases items w n) as [ [Hsame Hnot] | [v Hv] ].
    - by rewrite store_items_other.
    - by rewrite !Hv. }
  destruct save_args; apply map_eq; intros n.
  - cbn [attrs]. destruct (decide (n = "_args")) as [ -> | Hn ].
    + by rewrite !lookup_insert_eq.
    + rewrite !lookup_insert_ne by done.
      apply Hloop. cbn [attrs]. by rewrite lookup_insert_ne.
  - by apply Hloop.
Qed.

(** X14.  The constructor pattern of the example of the source: after
    [self_properties] has copied the entry for a name, the property
    declared for the function of that name reads that value (here with a
    wrapped function that leaves the instance alone).  The mapping has no
    key twice, the name is not ['self'], not excluded, and not ['args']
    when [save_args] is true. *)
Theorem self_properties_then_read cls self ro l ad f p g scope exclude save_args
    w v d :
  prop cls self ro l ad f = inr p →
  fget p = Some g →
  NoDup scope.*1 →
  (__name__ f, v) ∈ scope →
  __name__ f ≠ "self" →
  __name__ f ∉ exclude →
  save_args = false ∨ __name__ f ≠ "args" →
  body f (attrs (final (self_properties scope exclude save_args w)))
  = Ok d (attrs (final (self_properties scope exclude save_args w))) →
  g (final (self_properties scope exclude save_args w))
  = Ok v {| attrs := attrs (final (self_properties scope exclude save_args w));
            log := log (final (self_properties scope exclude save_args w))
                   ++ [EvDefault (__name__ f)] |}.
Proof.
  intros Hp Hg Hnd Hin Hself Hex Hargs Hf.
  rewrite (prop_getter _ _ _ _ _ _ _ Hp) in Hg. injection Hg as <-.
  rewrite getter_run, Hf.
  assert (Hv : attrs (final (self_properties scope exclude save_args w))
               !! ("_" +:+ __name__ f) = Some v).
  { rewrite self_properties_run. cbn [final].
    assert (Hitems : attrs (store_items (copied_items exclude scope) w)
                     !! ("_" +:+ __name__ f) = Some v).
    { apply store_items_lookup; [ by apply copied_items_NoDup | ].
      by apply copied_items_elem. }
    destruct save_args; [ | done ].
    destruct Hargs as [ | Hargs ]; [ done | ].
    cbn [attrs]. rewrite lookup_insert_ne; [ done | ].
    intros [= Heq]. by apply Hargs. }
  unfold lookup_attr. by rewrite Hv.
Qed.

(** [Car('Ford')]: the read-only property [brand] reads the argument. *)
Lemma self_properties_then_read_witness :
  ∃ w1, self_properties [("self", VObj 0); ("brand", VStr "Ford");
                         ("max_speed", VInt 200)] [] false Car.fresh
        = Ok tt w1
        ∧ (let! d := call_function Car.brand in
           getattr_default Car.car "_brand" d) w1
          = Ok (VStr "Ford") {| attrs := attrs w1;
                                log := log w1 ++ [EvDefault "brand"] |}.
Proof.
  eexists. split; [ reflexivity | ].
  apply (self_properties_then_read Car.car Car.meta true LAbsent false Car.brand
           _ _ [("self", VObj 0); ("brand", VStr "Ford"); ("max_speed", VInt 200)]
           [] false Car.fresh (VStr "Ford") VNone eq_refl eq_refl).
  - compute_done.
  - repeat constructor.
  - discriminate.
  - compute_done.
  - by left.
  - reflexivity.
Defined.
